(** * LabRecorder sample encoder ([src/conversions.h])

    A shallow embedding of the binary sample writers of [conversions.h]
    and the properties of the byte streams they produce.

    Conventions of the embedding:
    - a [std::ostream] is the list of bytes written to it so far; the
      writers only ever append, so every writer is a computation in the
      [Sink] state monad below;
    - an integer of a fixed-width C++ type is a [Z]; conversions between
      widths ([static_cast]) are written out as reductions modulo a power
      of two;
    - a template parameter [T] is a value of the enumeration [ctype];
    - a pointer/length pair [(sample, len)] is the list of the [len]
      elements it designates, and a returned pointer is the number of
      elements by which it is ahead of the pointer passed in.

    The header has two builds.  The code after the [#endif] (lines 98-189)
    is embedded over the writers of the default build (lines 74-95).  The
    branch under [EXOTIC_ARCH_SUPPORT] (lines 14-70) is not embedded: its
    integer writer calls [dst->sputn] on a [std::ostream &] (line 38),
    which has no [operator->], so that branch is ill-formed and has no
    behaviour to follow. *)

From Stdlib Require Import Strings.Byte Strings.String.
From Stdlib Require Import ZArith List Lia Bool.
Import Init.Datatypes ListNotations.
Open Scope Z_scope.

(** ** Bytes and little-endian byte strings *)

Definition byte_of_Z (z : Z) : byte :=
  match Byte.of_N (Z.to_N (z mod 256)) with
  | Some b => b
  | None => x00
  end.

Definition Z_of_byte (b : byte) : Z := Z.of_N (Byte.to_N b).

(** The [n] low-order bytes of [v], least significant byte first. *)
Fixpoint le_bytes (n : nat) (v : Z) : list byte :=
  match n with
  | O => []
  | S n' => byte_of_Z v :: le_bytes n' (Z.shiftr v 8)
  end.

(** The unsigned integer a little-endian byte string stands for. *)
Fixpoint le_decode (bs : list byte) : Z :=
  match bs with
  | [] => 0
  | b :: rest => Z_of_byte b + 256 * le_decode rest
  end.

(** ** The output stream *)

Definition ostream := list byte.

Definition Sink (A : Type) : Type := ostream -> A * ostream.

Definition ret {A : Type} (a : A) : Sink A := fun dst => (a, dst).

Definition bind {A B : Type} (m : Sink A) (k : A -> Sink B) : Sink B :=
  fun dst => let (a, dst') := m dst in k a dst'.

Declare Scope sink_scope.
Delimit Scope sink_scope with sink.
Notation "x <- m ;; k" := (bind m (fun x => k))
  (at level 61, m at next level, right associativity) : sink_scope.
Notation "m ;; k" := (bind m (fun _ => k))
  (at level 61, right associativity) : sink_scope.
Open Scope sink_scope.

(** [dst.put(c)] *)
Definition put (c : byte) : Sink unit := fun dst => (tt, dst ++ [c]).

(** [dst.write(p, n)] where [p] points at the [n] bytes [bs] *)
Definition write (bs : list byte) : Sink unit := fun dst => (tt, dst ++ bs).

(** A range-based [for] loop whose body only writes. *)
Fixpoint for_each {A : Type} (l : list A) (body : A -> Sink unit) : Sink unit :=
  match l with
  | [] => ret tt
  | x :: rest => body x ;; for_each rest body
  end.

(** [Appends m r bs]: whatever the stream holds, running [m] returns [r]
    and leaves the stream extended by exactly [bs]. *)
Definition Appends {A : Type} (m : Sink A) (r : A) (bs : list byte) : Prop :=
  forall dst, m dst = (r, dst ++ bs).

(** The bytes a writer produces on a fresh stream. *)
Definition emitted {A : Type} (m : Sink A) : list byte := snd (m []).

(** ** C++ scalar types *)

Inductive ctype : Type :=
| int8_t | uint8_t | int16_t | uint16_t
| int32_t | uint32_t | int64_t | uint64_t
| float | double.

Definition sizeof (T : ctype) : nat :=
  match T with
  | int8_t | uint8_t => 1
  | int16_t | uint16_t => 2
  | int32_t | uint32_t | float => 4
  | int64_t | uint64_t | double => 8
  end%nat.

(** Conversion to an unsigned type of [w] bytes. *)
Definition static_cast_unsigned (w : nat) (v : Z) : Z :=
  v mod 2 ^ (8 * Z.of_nat w).

(** ** Writers of the default build (lines 74-95)

    Without [EXOTIC_ARCH_SUPPORT] the header writes the object
    representation of a value as it lies in memory; the host is
    little-endian, so these are the bytes of the value, least significant
    first.  A value of a floating-point type is given by its bit pattern. *)

Definition write_little_endian (T : ctype) (t : Z) : Sink unit :=
  if (sizeof T =? 1)%nat then put (byte_of_Z t)
  else write (le_bytes (sizeof T) t).

(** numeric version, pointer overload: one [dst.write] of the whole array *)
Definition write_sample_values (T : ctype) (sample : list Z) : Sink nat :=
  write (concat (map (le_bytes (sizeof T)) sample)) ;;
  ret (length sample).

(** [std::vector<T>] overload *)
Definition write_sample_values_vector (T : ctype) (sample : list Z) : Sink unit :=
  write_sample_values T sample ;; ret tt.

(** [std::vector<std::vector<T>>] overload *)
Definition write_sample_values_vectors (T : ctype) (vecs : list (list Z)) : Sink unit :=
  for_each vecs (fun vec => write_sample_values_vector T vec).

(** ** Length-prefixed integers (lines 108-125) *)

Definition write_varlen_int (val : Z) : Sink unit :=
  if val <? 256 then
    put (byte_of_Z 1) ;;
    put (byte_of_Z (static_cast_unsigned 1 val))
  else if val <=? 4294967295 then
    put (byte_of_Z 4) ;;
    write_little_endian uint32_t (static_cast_unsigned 4 val)
  else
    put (byte_of_Z 8) ;;
    write_little_endian uint64_t (static_cast_unsigned 8 val).

Definition write_fixlen_int (T : ctype) (val : Z) : Sink unit :=
  put (byte_of_Z (Z.of_nat (sizeof T))) ;;
  write_little_endian T val.

(** ** Strings *)

(** A [std::string]: its bytes, and the fact that their number is a
    [std::size_t] (64 bits). *)
Record std_string : Type := mk_string {
  data : list byte;
  size_fits : (Z.of_nat (length data) <? 2 ^ 64) = true
}.

(** [s.size()], [s.length()] *)
Definition size (s : std_string) : Z := Z.of_nat (length (data s)).

Notation "'lit' s" := (mk_string (list_byte_of_string s) eq_refl)
  (at level 9, s at level 0, only parsing).

(** ** Plain string batches (lines 128-140) *)

Definition write_sample_values_string (sample : list std_string) : Sink nat :=
  for_each sample (fun s =>
    (* [NumLengthBytes], [Length] (as varlen int) *)
    write_varlen_int (size s) ;;
    (* [StringContent] *)
    write (data s)) ;;
  ret (length sample).

(** ** Chunk7 batches (lines 142-189) *)

Definition write_chunk7_samples (T : ctype) (sample : list Z) : Sink nat :=
  write_sample_values T sample.

Definition write_chunk7_samples_vector (T : ctype) (sample : list Z) : Sink unit :=
  write_sample_values T sample ;; ret tt.

(** The [std::vector<T>] overload at [T = std::string]: its call of
    [write_sample_values] on [sample.data()] selects the string version of
    lines 128-140. *)
Definition write_chunk7_samples_vector_string (sample : list std_string) : Sink unit :=
  write_sample_values_string sample ;; ret tt.

(** [std::minmax_element] on a range that starts with [smallest = largest]
    and continues with [l]: the values of the first smallest and of the
    last largest element. *)
Fixpoint minmax_scan (l : list Z) (smallest largest : Z) : Z * Z :=
  match l with
  | [] => (smallest, largest)
  | x :: rest =>
      minmax_scan rest (if x <? smallest then x else smallest)
                       (if x <? largest then largest else x)
  end.

Definition minmax_element (l : list Z) : Z * Z :=
  match l with
  | [] => (0, 0) (* the end iterator; never dereferenced, the range is not empty *)
  | x :: rest => minmax_scan rest x x
  end.

(** Lines 163-167: the uniformity flag, and the length list kept for the
    [switch]. *)
Definition chunk7_flag (strlens : list Z) (minlen maxlen : Z) : Sink (list Z) :=
  if minlen =? maxlen then
    write_little_endian int8_t 1 ;;
    ret [maxlen]
  else
    write_little_endian int8_t 0 ;;
    ret strlens.

(** Lines 169-172.  [1L<<32] is computed in [long], 64 bits wide on the
    targets where a string can be that long. *)
Definition chunk7_lenbytes (maxlen : Z) : Z :=
  if maxlen >=? Z.shiftl 1 32 then 8
  else if maxlen >=? Z.shiftl 1 16 then 4
  else if maxlen >=? Z.shiftl 1 8 then 2
  else 1.

(** One arm of the [switch] of lines 175-184: the [for] loop that writes
    every length converted to the arm's type. *)
Definition write_strlens (T : ctype) (strlens : list Z) : Sink unit :=
  for_each strlens (fun strlen =>
    write_little_endian T (static_cast_unsigned (sizeof T) strlen)).

(** The [case] labels of the [switch] with the type each arm casts to, in
    source order. *)
Definition switch_arms : list (Z * ctype) :=
  [(1, uint8_t); (2, uint16_t); (4, uint32_t); (8, uint64_t)].

(** Control enters a [switch] at the first label equal to the scrutinee;
    no arm of this one ends in [break], so every arm from there to the
    closing brace runs.  Without a matching label (there is no [default])
    nothing runs. *)
Fixpoint enter (scrutinee : Z) (arms : list (Z * ctype)) : list (Z * ctype) :=
  match arms with
  | [] => []
  | (label, T) :: rest =>
      if scrutinee =? label then arms else enter scrutinee rest
  end.

Definition chunk7_switch (lenbytes : Z) (strlens : list Z) : Sink unit :=
  for_each (enter lenbytes switch_arms) (fun arm => write_strlens (snd arm) strlens).

(** string version *)
Definition write_chunk7_samples_string (sample : list std_string) : Sink nat :=
  if (length sample =? 0)%nat then ret 0%nat
  else
    let strlens := map size sample in
    let (minlen, maxlen) := minmax_element strlens in
    strlens <- chunk7_flag strlens minlen maxlen ;;
    let lenbytes := chunk7_lenbytes maxlen in
    write_little_endian uint8_t lenbytes ;;
    chunk7_switch lenbytes strlens ;;
    for_each sample (fun it => write (data it)) ;;
    ret 0%nat.

(** ** Definitions for the statements *)

(** The width [write_varlen_int] announces in its tag byte. *)
Definition varlen_width (val : Z) : nat :=
  if val <? 256 then 1%nat else if val <=? 4294967295 then 4%nat else 8%nat.

(** The bytes one arm of the [switch] writes. *)
Definition arm_bytes (strlens : list Z) (arm : Z * ctype) : list byte :=
  concat (map (fun strlen =>
                 le_bytes (sizeof (snd arm))
                          (static_cast_unsigned (sizeof (snd arm)) strlen))
              strlens).

(** The length list that reaches the [switch], as a function of the batch's
    lengths (the value [chunk7_flag] returns). *)
Definition retained_strlens (strlens : list Z) : list Z :=
  let (minlen, maxlen) := minmax_element strlens in
  if minlen =? maxlen then [maxlen] else strlens.

(** Sum of a list of integers. *)
Definition total (l : list Z) : Z := fold_right Z.add 0 l.

(** The chunk7 string format as the documentation words it

    Flag byte, width byte, the length list once in the announced width,
    then the payloads. *)
Definition chunk7_documented (sample : list std_string) : list byte :=
  match sample with
  | [] => []
  | _ :: _ =>
      let strlens := map size sample in
      let (minlen, maxlen) := minmax_element strlens in
      let width :=
        if maxlen <? 2 ^ 8 then 1%nat
        else if maxlen <? 2 ^ 16 then 2%nat
        else if maxlen <? 2 ^ 32 then 4%nat
        else 8%nat in
      let length_list := if minlen =? maxlen then [maxlen] else strlens in
      [byte_of_Z (if minlen =? maxlen then 1 else 0); byte_of_Z (Z.of_nat width)]
        ++ concat (map (le_bytes width) length_list)
        ++ concat (map data sample)
  end.

(** A value of type [T] as an unsigned bit pattern. *)
Definition in_range (T : ctype) (v : Z) : Prop :=
  0 <= v < 2 ^ (8 * Z.of_nat (sizeof T)).

(** The number of bytes the arms [arms] of the [switch] spend on one
    entry of the length list. *)
Definition arms_width (arms : list (Z * ctype)) : Z :=
  total (map (fun arm => Z.of_nat (sizeof (snd arm))) arms).

(** ** Lemmas on bytes *)

Lemma Z_of_byte_of_Z (z : Z) : Z_of_byte (byte_of_Z z) = z mod 256.
Proof.
  unfold Z_of_byte, byte_of_Z.
  assert (Hr : 0 <= z mod 256 < 256) by (apply Z.mod_pos_bound; lia).
  destruct (Byte.of_N (Z.to_N (z mod 256))) as [b|] eqn:E.
  - apply Byte.to_of_N in E. rewrite E. lia.
  - apply Byte.of_N_None_iff in E. lia.
Qed.

Lemma Z_of_byte_range (b : byte) : 0 <= Z_of_byte b < 256.
Proof.
  unfold Z_of_byte. pose proof (Byte.to_N_bounded b). lia.
Qed.

Lemma byte_of_Z_inj (a b : Z) :
  0 <= a < 256 -> 0 <= b < 256 -> byte_of_Z a = byte_of_Z b -> a = b.
Proof.
  intros Ha Hb E.
  apply (f_equal Z_of_byte) in E.
  rewrite !Z_of_byte_of_Z, !Z.mod_small in E; lia.
Qed.

Lemma length_le_bytes (n : nat) (v : Z) : length (le_bytes n v) = n.
Proof.
  revert v; induction n as [|n IH]; intros v; simpl; [reflexivity|].
  now rewrite IH.
Qed.

Lemma le_decode_le_bytes (n : nat) (v : Z) :
  le_decode (le_bytes n v) = v mod 2 ^ (8 * Z.of_nat n).
Proof.
  revert v; induction n as [|n IH]; intros v.
  - simpl. now rewrite Z.mod_1_r.
  - cbn [le_bytes le_decode].
    rewrite IH, Z_of_byte_of_Z, Z.shiftr_div_pow2 by lia.
    replace (8 * Z.of_nat (S n)) with (8 + 8 * Z.of_nat n) by lia.
    rewrite Z.pow_add_r by lia.
    change (2 ^ 8) with 256.
    rewrite Z.rem_mul_r by lia.
    reflexivity.
Qed.

Lemma le_decode_le_bytes_small (n : nat) (v : Z) :
  0 <= v < 2 ^ (8 * Z.of_nat n) -> le_decode (le_bytes n v) = v.
Proof.
  intros H. rewrite le_decode_le_bytes. now apply Z.mod_small.
Qed.

Lemma byte_of_Z_of_byte (b : byte) : byte_of_Z (Z_of_byte b) = b.
Proof.
  unfold byte_of_Z.
  rewrite Z.mod_small by apply Z_of_byte_range.
  unfold Z_of_byte. rewrite N2Z.id, Byte.of_to_N. reflexivity.
Qed.

Lemma byte_of_Z_mod (z : Z) : byte_of_Z (z mod 256) = byte_of_Z z.
Proof.
  unfold byte_of_Z. rewrite Z.mod_mod by lia. reflexivity.
Qed.

Lemma le_bytes_le_decode (bs : list byte) :
  le_bytes (length bs) (le_decode bs) = bs.
Proof.
  induction bs as [|b bs IH]; [reflexivity|].
  cbn [length le_bytes le_decode].
  pose proof (Z_of_byte_range b) as Hb.
  f_equal.
  - rewrite <- (byte_of_Z_mod (Z_of_byte b + 256 * le_decode bs)).
    replace ((Z_of_byte b + 256 * le_decode bs) mod 256) with (Z_of_byte b).
    + apply byte_of_Z_of_byte.
    + rewrite (Z.mul_comm 256), Z.mod_add, Z.mod_small; lia.
  - rewrite Z.shiftr_div_pow2 by lia. change (2 ^ 8) with 256.
    replace ((Z_of_byte b + 256 * le_decode bs) / 256) with (le_decode bs);
      [exact IH|].
    rewrite (Z.add_comm (Z_of_byte b)), (Z.mul_comm 256), Z.div_add_l by lia.
    rewrite Z.div_small by lia. lia.
Qed.

(** ** Lemmas on the stream monad *)

Lemma Appends_ret {A : Type} (a : A) : Appends (ret a) a [].
Proof. intros dst. unfold ret. now rewrite app_nil_r. Qed.

Lemma Appends_put (c : byte) : Appends (put c) tt [c].
Proof. intros dst. reflexivity. Qed.

Lemma Appends_write (bs : list byte) : Appends (write bs) tt bs.
Proof. intros dst. reflexivity. Qed.

Lemma Appends_bind {A B : Type} (m : Sink A) (k : A -> Sink B) a b bs1 bs2 :
  Appends m a bs1 -> Appends (k a) b bs2 -> Appends (bind m k) b (bs1 ++ bs2).
Proof.
  intros Hm Hk dst. unfold bind. rewrite Hm, Hk. now rewrite app_assoc.
Qed.

Lemma Appends_for_each {A : Type} (l : list A) (body : A -> Sink unit)
      (f : A -> list byte) :
  (forall x, Appends (body x) tt (f x)) ->
  Appends (for_each l body) tt (concat (map f l)).
Proof.
  intros Hbody. induction l as [|x l IH]; simpl.
  - apply Appends_ret.
  - apply Appends_bind with (a := tt); auto.
Qed.

Lemma Appends_emitted {A : Type} (m : Sink A) r bs :
  Appends m r bs -> emitted m = bs.
Proof. intros H. unfold emitted. now rewrite H. Qed.

Lemma Appends_eq {A : Type} (m : Sink A) r bs bs' :
  Appends m r bs -> bs = bs' -> Appends m r bs'.
Proof. now intros H <-. Qed.

Lemma Appends_write_little_endian (T : ctype) (t : Z) :
  Appends (write_little_endian T t) tt (le_bytes (sizeof T) t).
Proof.
  unfold write_little_endian.
  destruct (sizeof T =? 1)%nat eqn:E.
  - apply Nat.eqb_eq in E. rewrite E. apply Appends_put.
  - apply Appends_write.
Qed.

Create HintDb appends discriminated.
#[local] Hint Resolve Appends_ret Appends_put Appends_write
  Appends_write_little_endian : appends.

(** Splits a sequence of two writers and closes the parts that are
    primitive writes. *)
Ltac appends_seq := eapply Appends_bind; eauto with appends.

Lemma Appends_write_sample_values (T : ctype) (sample : list Z) :
  Appends (write_sample_values T sample) (length sample)
          (concat (map (le_bytes (sizeof T)) sample)).
Proof.
  unfold write_sample_values.
  eapply Appends_eq.
  - appends_seq.
  - apply app_nil_r.
Qed.

(** ** [write_varlen_int] *)

Lemma varlen_width_cases (v : Z) :
  varlen_width v = 1%nat \/ varlen_width v = 4%nat \/ varlen_width v = 8%nat.
Proof.
  unfold varlen_width.
  destruct (v <? 256); [now left|].
  destruct (v <=? 4294967295); [right; now left | right; now right].
Qed.

Lemma Appends_write_varlen_int (v : Z) :
  0 <= v < 2 ^ 64 ->
  Appends (write_varlen_int v) tt
          (byte_of_Z (Z.of_nat (varlen_width v)) :: le_bytes (varlen_width v) v).
Proof.
  intros Hv. unfold write_varlen_int, varlen_width.
  destruct (v <? 256) eqn:E1.
  - apply Z.ltb_lt in E1.
    eapply Appends_eq.
    + appends_seq.
    + unfold static_cast_unsigned.
      change (2 ^ (8 * Z.of_nat 1)) with 256.
      rewrite Z.mod_small by lia. reflexivity.
  - apply Z.ltb_ge in E1.
    destruct (v <=? 4294967295) eqn:E2.
    + apply Z.leb_le in E2.
      eapply Appends_eq.
      * appends_seq.
      * unfold static_cast_unsigned.
        change (2 ^ (8 * Z.of_nat 4)) with 4294967296.
        rewrite Z.mod_small by lia. reflexivity.
    + apply Z.leb_gt in E2.
      eapply Appends_eq.
      * appends_seq.
      * unfold static_cast_unsigned.
        change (2 ^ (8 * Z.of_nat 8)) with (2 ^ 64).
        rewrite Z.mod_small by lia. reflexivity.
Qed.

Lemma varlen_width_holds (v : Z) :
  0 <= v < 2 ^ 64 -> v < 2 ^ (8 * Z.of_nat (varlen_width v)).
Proof.
  intros Hv. unfold varlen_width.
  destruct (v <? 256) eqn:E1.
  - apply Z.ltb_lt in E1. change (2 ^ (8 * Z.of_nat 1)) with 256. lia.
  - destruct (v <=? 4294967295) eqn:E2.
    + apply Z.leb_le in E2. change (2 ^ (8 * Z.of_nat 4)) with 4294967296. lia.
    + change (2 ^ (8 * Z.of_nat 8)) with (2 ^ 64). lia.
Qed.

(** C2. For every unsigned 64-bit value [v], [write_varlen_int] appends
    one tag byte followed by [v] in little-endian order: the body has as
    many bytes as the tag says and decodes to [v]; the width is 1 if
    [v < 256], else 4 if [v <= 4294967295], else 8; the tag is never 2. *)
Theorem write_varlen_int_format (v : Z) (Hv : 0 <= v < 2 ^ 64) :
  exists (w : nat) (body : list byte),
    (forall dst, write_varlen_int v dst = (tt, dst ++ byte_of_Z (Z.of_nat w) :: body)) /\
    w = (if v <? 256 then 1%nat else if v <=? 4294967295 then 4%nat else 8%nat) /\
    body = le_bytes w v /\
    length body = w /\
    le_decode body = v /\
    Z_of_byte (byte_of_Z (Z.of_nat w)) = Z.of_nat (length body) /\
    byte_of_Z (Z.of_nat w) <> x02.
Proof.
  exists (varlen_width v), (le_bytes (varlen_width v) v).
  split; [exact (Appends_write_varlen_int v Hv)|].
  split; [reflexivity|].
  split; [reflexivity|].
  split; [apply length_le_bytes|].
  split.
  { apply le_decode_le_bytes_small. pose proof (varlen_width_holds v Hv). lia. }
  rewrite length_le_bytes.
  destruct (varlen_width_cases v) as [-> | [-> | ->]];
    (split; [reflexivity | discriminate]).
Qed.

Lemma write_varlen_int_format_witness :
  0 <= 300 < 2 ^ 64 /\
  exists (w : nat) (body : list byte),
    (forall dst, write_varlen_int 300 dst = (tt, dst ++ byte_of_Z (Z.of_nat w) :: body)) /\
    w = (if 300 <? 256 then 1%nat else if 300 <=? 4294967295 then 4%nat else 8%nat) /\
    body = le_bytes w 300 /\
    length body = w /\
    le_decode body = 300 /\
    Z_of_byte (byte_of_Z (Z.of_nat w)) = Z.of_nat (length body) /\
    byte_of_Z (Z.of_nat w) <> x02.
Proof.
  assert (H : 0 <= 300 < 2 ^ 64) by (split; [lia | reflexivity]).
  split; [exact H | exact (write_varlen_int_format 300 H)].
Defined.

(** ** [std::minmax_element] *)

Lemma minmax_scan_spec (l : list Z) :
  forall a b, a <= b ->
    let (mn, mx) := minmax_scan l a b in
    mn <= a /\ b <= mx /\
    Forall (fun x => mn <= x <= mx) l /\
    (mn = a \/ In mn l) /\ (mx = b \/ In mx l).
Proof.
  induction l as [|x l IH]; intros a b Hab; simpl.
  - repeat split; try lia; auto.
  - set (a' := if x <? a then x else a).
    set (b' := if x <? b then b else x).
    assert (Ha' : a' <= a /\ a' <= x /\ (a' = a \/ a' = x))
      by (unfold a'; destruct (Z.ltb_spec x a); lia).
    assert (Hb' : b <= b' /\ x <= b' /\ (b' = b \/ b' = x))
      by (unfold b'; destruct (Z.ltb_spec x b); lia).
    specialize (IH a' b' ltac:(lia)).
    destruct (minmax_scan l a' b') as [mn mx].
    destruct IH as (H1 & H2 & H3 & H4 & H5).
    repeat split; try lia.
    + constructor; [lia | exact H3].
    + destruct H4 as [-> | H4]; [|now right; right].
      destruct Ha' as (_ & _ & [-> | ->]); [now left | right; now left].
    + destruct H5 as [-> | H5]; [|now right; right].
      destruct Hb' as (_ & _ & [-> | ->]); [now left | right; now left].
Qed.

Lemma minmax_element_spec (x : Z) (rest : list Z) :
  let (mn, mx) := minmax_element (x :: rest) in
  In mn (x :: rest) /\ In mx (x :: rest) /\
  Forall (fun y => mn <= y <= mx) (x :: rest).
Proof.
  unfold minmax_element.
  pose proof (minmax_scan_spec rest x x ltac:(lia)) as H.
  destruct (minmax_scan rest x x) as [mn mx].
  destruct H as (H1 & H2 & H3 & H4 & H5).
  repeat split.
  - destruct H4 as [-> | H4]; [now left | now right].
  - destruct H5 as [-> | H5]; [now left | now right].
  - constructor; [lia | exact H3].
Qed.

(** ** The chunk7 string writer *)

Lemma Appends_chunk7_flag (strlens : list Z) (minlen maxlen : Z) :
  Appends (chunk7_flag strlens minlen maxlen)
          (if minlen =? maxlen then [maxlen] else strlens)
          [if minlen =? maxlen then x01 else x00].
Proof.
  unfold chunk7_flag. destruct (minlen =? maxlen).
  - eapply Appends_eq.
    + appends_seq.
    + reflexivity.
  - eapply Appends_eq.
    + appends_seq.
    + reflexivity.
Qed.

Lemma Appends_write_strlens (T : ctype) (strlens : list Z) :
  Appends (write_strlens T strlens) tt
          (concat (map (fun strlen =>
                          le_bytes (sizeof T) (static_cast_unsigned (sizeof T) strlen))
                       strlens)).
Proof.
  unfold write_strlens.
  apply Appends_for_each with
    (f := fun strlen => le_bytes (sizeof T) (static_cast_unsigned (sizeof T) strlen)).
  intros x. apply Appends_write_little_endian.
Qed.

Lemma Appends_chunk7_switch (lenbytes : Z) (strlens : list Z) :
  Appends (chunk7_switch lenbytes strlens) tt
          (concat (map (arm_bytes strlens) (enter lenbytes switch_arms))).
Proof.
  unfold chunk7_switch.
  apply Appends_for_each with (f := arm_bytes strlens).
  intros arm. apply Appends_write_strlens.
Qed.

Lemma Appends_write_chunk7_samples_string (s : std_string) (rest : list std_string) :
  let strlens := map size (s :: rest) in
  let minlen := fst (minmax_element strlens) in
  let maxlen := snd (minmax_element strlens) in
  Appends (write_chunk7_samples_string (s :: rest)) 0%nat
          ((if minlen =? maxlen then x01 else x00)
             :: byte_of_Z (chunk7_lenbytes maxlen)
             :: concat (map (arm_bytes (retained_strlens strlens))
                            (enter (chunk7_lenbytes maxlen) switch_arms))
             ++ concat (map data (s :: rest))).
Proof.
  intros strlens minlen maxlen.
  unfold write_chunk7_samples_string, retained_strlens.
  change (length (s :: rest) =? 0)%nat with false. cbv iota.
  fold strlens.
  subst minlen maxlen.
  destruct (minmax_element strlens) as [minlen maxlen]. cbn [fst snd].
  eapply Appends_eq.
  - eapply Appends_bind; [apply Appends_chunk7_flag|].
    eapply Appends_bind; [apply Appends_write_little_endian|].
    eapply Appends_bind; [apply Appends_chunk7_switch|].
    eapply Appends_bind; [|apply Appends_ret].
    apply Appends_for_each with (f := data).
    intros it. apply Appends_write.
  - cbn [sizeof le_bytes app]. rewrite app_nil_r. reflexivity.
Qed.

(** C5. On an empty batch the chunk7 string writer returns at once and
    leaves the stream exactly as it found it: no byte is appended, not
    even the flag. *)
Theorem write_chunk7_samples_string_empty :
  (forall dst, write_chunk7_samples_string [] dst = (0%nat, dst)) /\
  emitted (write_chunk7_samples_string []) = [] /\
  length (emitted (write_chunk7_samples_string [])) = 0%nat.
Proof.
  repeat split.
Qed.

Lemma size_range (s : std_string) : 0 <= size s < 2 ^ 64.
Proof.
  unfold size. pose proof (size_fits s) as H. apply Z.ltb_lt in H. lia.
Qed.

Lemma Forall_size_range (sample : list std_string) :
  Forall (fun l => 0 <= l < 2 ^ 64) (map size sample).
Proof.
  apply Forall_forall. intros l Hl.
  apply in_map_iff in Hl. destruct Hl as (s & <- & _). apply size_range.
Qed.

Lemma chunk7_lenbytes_spec (maxlen : Z) :
  chunk7_lenbytes maxlen =
  if maxlen <? 2 ^ 8 then 1
  else if maxlen <? 2 ^ 16 then 2
  else if maxlen <? 2 ^ 32 then 4
  else 8.
Proof.
  unfold chunk7_lenbytes.
  change (Z.shiftl 1 32) with (2 ^ 32).
  change (Z.shiftl 1 16) with (2 ^ 16).
  change (Z.shiftl 1 8) with (2 ^ 8).
  rewrite !Z.geb_leb.
  destruct (Z.ltb_spec maxlen (2 ^ 8)), (Z.ltb_spec maxlen (2 ^ 16)),
    (Z.ltb_spec maxlen (2 ^ 32)), (Z.leb_spec (2 ^ 32) maxlen),
    (Z.leb_spec (2 ^ 16) maxlen), (Z.leb_spec (2 ^ 8) maxlen);
    try reflexivity; lia.
Qed.

Lemma retained_strlens_spec (strlens : list Z) :
  retained_strlens strlens =
  if fst (minmax_element strlens) =? snd (minmax_element strlens)
  then [snd (minmax_element strlens)] else strlens.
Proof.
  unfold retained_strlens. now destruct (minmax_element strlens).
Qed.

(** C6. The first byte a non-empty chunk7 string batch appends is the
    uniformity flag: 1 if and only if the smallest and the largest string
    length coincide, 0 otherwise.  When they coincide the length list handed
    on to the width switch is the one-element list of the shared length.
    A batch of a single string always takes this path. *)
Theorem chunk7_flag_uniform :
  (forall (s : std_string) (rest : list std_string),
      let strlens := map size (s :: rest) in
      exists (minlen maxlen : Z) (flag : byte) (retained : list Z),
        In minlen strlens /\ In maxlen strlens /\
        Forall (fun l => minlen <= l <= maxlen) strlens /\
        (forall dst,
            write_chunk7_samples_string (s :: rest) dst =
            (0%nat,
             dst ++ flag :: byte_of_Z (chunk7_lenbytes maxlen)
                 :: concat (map (arm_bytes retained)
                                (enter (chunk7_lenbytes maxlen) switch_arms))
                 ++ concat (map data (s :: rest)))) /\
        (forall dst,
            chunk7_flag strlens minlen maxlen dst = (retained, dst ++ [flag])) /\
        (flag = x01 <-> minlen = maxlen) /\
        (flag = x00 <-> minlen <> maxlen) /\
        retained = (if minlen =? maxlen then [maxlen] else strlens)) /\
  (forall (s : std_string),
      exists tail : list byte,
        (forall dst,
            write_chunk7_samples_string [s] dst = (0%nat, dst ++ x01 :: tail)) /\
        retained_strlens (map size [s]) = [size s]).
Proof.
  split.
  - intros s rest strlens.
    pose proof (Appends_write_chunk7_samples_string s rest) as Hw.
    cbv zeta in Hw. fold strlens in Hw.
    rewrite retained_strlens_spec in Hw.
    pose proof (minmax_element_spec (size s) (map size rest)) as Hmm.
    change (size s :: map size rest) with strlens in Hmm.
    destruct (minmax_element strlens) as [minlen maxlen]. cbn [fst snd] in Hw.
    destruct Hmm as (Hmin & Hmax & Hall).
    exists minlen, maxlen, (if minlen =? maxlen then x01 else x00),
      (if minlen =? maxlen then [maxlen] else strlens).
    split; [exact Hmin|]. split; [exact Hmax|]. split; [exact Hall|].
    split; [exact Hw|].
    split; [apply Appends_chunk7_flag|].
    destruct (Z.eqb_spec minlen maxlen) as [E|E].
    + repeat split; intros; try reflexivity; try discriminate; try assumption.
      contradiction.
    + repeat split; intros; try reflexivity; try discriminate; try assumption.
      contradiction.
  - intros s.
    pose proof (Appends_write_chunk7_samples_string s []) as Hw.
    cbv zeta in Hw.
    assert (Hmm : minmax_element (map size [s]) = (size s, size s)) by reflexivity.
    rewrite Hmm in Hw. cbn [fst snd] in Hw. rewrite Z.eqb_refl in Hw.
    eexists. split; [exact Hw|].
    unfold retained_strlens. rewrite Hmm, Z.eqb_refl. reflexivity.
Qed.

(** C3. The second byte a non-empty chunk7 string batch appends is the
    width of the length fields: 1 if the largest string length is below
    2^8, 2 if below 2^16, 4 if below 2^32, else 8 -- the smallest of
    1, 2, 4, 8 whose range holds that length.  A batch whose longest string
    has exactly 256 bytes gets width 2. *)
Theorem chunk7_width_byte :
  (forall (s : std_string) (rest : list std_string),
      let strlens := map size (s :: rest) in
      exists (maxlen : Z) (flag : byte) (w : nat) (tail : list byte),
        In maxlen strlens /\
        Forall (fun l => l <= maxlen) strlens /\
        (forall dst,
            write_chunk7_samples_string (s :: rest) dst =
            (0%nat, dst ++ flag :: byte_of_Z (Z.of_nat w) :: tail)) /\
        w = (if maxlen <? 2 ^ 8 then 1%nat
             else if maxlen <? 2 ^ 16 then 2%nat
             else if maxlen <? 2 ^ 32 then 4%nat
             else 8%nat) /\
        In w [1; 2; 4; 8]%nat /\
        maxlen < 2 ^ (8 * Z.of_nat w) /\
        Forall (fun w' => maxlen < 2 ^ (8 * Z.of_nat w') -> (w <= w')%nat)
               [1; 2; 4; 8]%nat) /\
  (exists tail : list byte,
      forall dst,
        write_chunk7_samples_string [mk_string (repeat "x"%byte 256) eq_refl] dst =
        (0%nat, dst ++ x01 :: x02 :: tail)) /\
  chunk7_lenbytes 255 = 1 /\ chunk7_lenbytes 256 = 2.
Proof.
  split; [|split; [|split; reflexivity]].
  - intros s rest strlens.
    pose proof (Appends_write_chunk7_samples_string s rest) as Hw.
    cbv zeta in Hw. fold strlens in Hw.
    pose proof (minmax_element_spec (size s) (map size rest)) as Hmm.
    change (size s :: map size rest) with strlens in Hmm.
    pose proof (Forall_size_range (s :: rest)) as Hrange.
    fold strlens in Hrange.
    destruct (minmax_element strlens) as [minlen maxlen]. cbn [fst snd] in Hw.
    destruct Hmm as (_ & Hmax & Hall).
    assert (Hm : 0 <= maxlen < 2 ^ 64)
      by (rewrite Forall_forall in Hrange; now apply Hrange).
    exists maxlen, (if minlen =? maxlen then x01 else x00).
    exists (if maxlen <? 2 ^ 8 then 1%nat
            else if maxlen <? 2 ^ 16 then 2%nat
            else if maxlen <? 2 ^ 32 then 4%nat
            else 8%nat).
    exists (concat (map (arm_bytes (retained_strlens strlens))
                        (enter (chunk7_lenbytes maxlen) switch_arms))
              ++ concat (map data (s :: rest))).
    split; [exact Hmax|].
    split.
    { eapply Forall_impl; [|exact Hall]. cbv beta. intros; lia. }
    split.
    { intros dst. rewrite Hw. do 4 f_equal.
      rewrite chunk7_lenbytes_spec.
      destruct (maxlen <? 2 ^ 8); [reflexivity|].
      destruct (maxlen <? 2 ^ 16); [reflexivity|].
      destruct (maxlen <? 2 ^ 32); reflexivity. }
    split; [reflexivity|].
    assert (Hsmallest : forall w : nat,
               In w [1; 2; 4; 8]%nat -> maxlen < 2 ^ (8 * Z.of_nat w) ->
               (forall w' : nat, In w' [1; 2; 4; 8]%nat -> (w' < w)%nat ->
                                 2 ^ (8 * Z.of_nat w') <= maxlen) ->
               In w [1; 2; 4; 8]%nat /\ maxlen < 2 ^ (8 * Z.of_nat w) /\
               Forall (fun w' => maxlen < 2 ^ (8 * Z.of_nat w') -> (w <= w')%nat)
                      [1; 2; 4; 8]%nat).
    { intros w Hin Hlt Hlow. split; [exact Hin|]. split; [exact Hlt|].
      apply Forall_forall. intros w' Hin' Hlt'.
      destruct (Nat.le_gt_cases w w') as [Hle|Hgt]; [exact Hle|].
      specialize (Hlow w' Hin' Hgt). lia. }
    destruct (Z.ltb_spec maxlen (2 ^ 8)) as [H8|H8].
    { apply Hsmallest; [simpl; tauto | exact H8 |].
      intros w' Hin' Hlt'. simpl in Hin'. lia. }
    destruct (Z.ltb_spec maxlen (2 ^ 16)) as [H16|H16].
    { apply Hsmallest; [simpl; tauto | exact H16 |].
      intros w' Hin' Hlt'. simpl in Hin'.
      assert (w' = 1%nat) as -> by lia. exact H8. }
    destruct (Z.ltb_spec maxlen (2 ^ 32)) as [H32|H32].
    { apply Hsmallest; [simpl; tauto | exact H32 |].
      intros w' Hin' Hlt'. simpl in Hin'.
      assert (w' = 1%nat \/ w' = 2%nat) as [-> | ->] by lia; assumption. }
    apply Hsmallest; [simpl; tauto | exact (proj2 Hm) |].
    intros w' Hin' Hlt'. simpl in Hin'.
    assert (w' = 1%nat \/ w' = 2%nat \/ w' = 4%nat) as [-> | [-> | ->]] by lia;
      assumption.
  - eexists. intros dst.
    rewrite (Appends_write_chunk7_samples_string
               (mk_string (repeat "x"%byte 256) eq_refl) []).
    reflexivity.
Qed.

(** *** The arms the [switch] runs *)

Lemma enter_switch_arms_cases (maxlen : Z) :
  (maxlen < 2 ^ 8 /\ enter (chunk7_lenbytes maxlen) switch_arms = switch_arms) \/
  (maxlen < 2 ^ 16 /\
   enter (chunk7_lenbytes maxlen) switch_arms =
   [(2, uint16_t); (4, uint32_t); (8, uint64_t)]) \/
  (maxlen < 2 ^ 32 /\
   enter (chunk7_lenbytes maxlen) switch_arms = [(4, uint32_t); (8, uint64_t)]) \/
  enter (chunk7_lenbytes maxlen) switch_arms = [(8, uint64_t)].
Proof.
  rewrite chunk7_lenbytes_spec.
  destruct (Z.ltb_spec maxlen (2 ^ 8)); [left; now split|].
  destruct (Z.ltb_spec maxlen (2 ^ 16)); [right; left; now split|].
  destruct (Z.ltb_spec maxlen (2 ^ 32)); [right; right; left; now split|].
  right; right; right; reflexivity.
Qed.

Lemma static_cast_unsigned_small (w : nat) (v : Z) :
  0 <= v < 2 ^ (8 * Z.of_nat w) -> static_cast_unsigned w v = v.
Proof. intros H. unfold static_cast_unsigned. now apply Z.mod_small. Qed.

Lemma retained_strlens_incl (x : Z) (rest : list Z) :
  incl (retained_strlens (x :: rest)) (x :: rest).
Proof.
  rewrite retained_strlens_spec.
  pose proof (minmax_element_spec x rest) as H.
  destruct (minmax_element (x :: rest)) as [mn mx]. cbn [fst snd].
  destruct H as (_ & Hmx & _).
  destruct (mn =? mx); [|apply incl_refl].
  intros l [<- | []]. exact Hmx.
Qed.

(** C10. No length is truncated on its way to the stream.  Every entry of
    the length list the switch writes is the length of a string of the
    batch, and in every arm the switch runs the entry lies below
    2^(8*w) for the arm's width [w]: the conversion to the arm's type
    leaves it unchanged and the bytes written decode to it. *)
Theorem chunk7_lengths_not_truncated (s : std_string) (rest : list std_string) :
  let strlens := map size (s :: rest) in
  let maxlen := snd (minmax_element strlens) in
  let retained := retained_strlens strlens in
  let arms := enter (chunk7_lenbytes maxlen) switch_arms in
  (exists flag : byte,
      forall dst,
        write_chunk7_samples_string (s :: rest) dst =
        (0%nat,
         dst ++ flag :: byte_of_Z (chunk7_lenbytes maxlen)
             :: concat (map (arm_bytes retained) arms)
             ++ concat (map data (s :: rest)))) /\
  Forall (fun l => exists it, In it (s :: rest) /\ l = size it) retained /\
  Forall (fun arm =>
            Forall (fun l =>
                      let w := sizeof (snd arm) in
                      0 <= l < 2 ^ (8 * Z.of_nat w) /\
                      static_cast_unsigned w l = l /\
                      le_decode (le_bytes w (static_cast_unsigned w l)) = l)
                   retained)
         arms.
Proof.
  intros strlens maxlen retained arms.
  assert (Hincl : incl retained strlens) by apply retained_strlens_incl.
  pose proof (minmax_element_spec (size s) (map size rest)) as Hmm.
  change (size s :: map size rest) with strlens in Hmm.
  pose proof (Forall_size_range (s :: rest)) as Hrange. fold strlens in Hrange.
  rewrite Forall_forall in Hrange.
  split; [|split].
  - eexists. exact (Appends_write_chunk7_samples_string s rest).
  - apply Forall_forall. intros l Hl. apply Hincl in Hl.
    apply in_map_iff in Hl. destruct Hl as (it & <- & Hit). now exists it.
  - assert (Hbound : forall l, In l retained -> 0 <= l <= maxlen /\ l < 2 ^ 64).
    { intros l Hl. apply Hincl in Hl. subst maxlen.
      destruct (minmax_element strlens) as [mn mx]. cbn [snd].
      destruct Hmm as (_ & _ & Hall). rewrite Forall_forall in Hall.
      specialize (Hall l Hl). specialize (Hrange l Hl). lia. }
    assert (Hok : forall (w : nat) (l : Z),
               0 <= l < 2 ^ (8 * Z.of_nat w) ->
               0 <= l < 2 ^ (8 * Z.of_nat w) /\
               static_cast_unsigned w l = l /\
               le_decode (le_bytes w (static_cast_unsigned w l)) = l).
    { intros w l Hl. split; [exact Hl|].
      rewrite static_cast_unsigned_small by exact Hl.
      split; [reflexivity | now apply le_decode_le_bytes_small]. }
    subst arms.
    destruct (enter_switch_arms_cases maxlen) as [[Hm ->] | [[Hm ->] | [[Hm ->] | ->]]];
      unfold switch_arms;
      repeat (apply Forall_cons; [|]); try apply Forall_nil;
      apply Forall_forall; intros l Hl; cbv zeta; cbn [snd sizeof];
      apply Hok; specialize (Hbound l Hl);
      first [ change (2 ^ (8 * Z.of_nat 1)) with (2 ^ 8)
            | change (2 ^ (8 * Z.of_nat 2)) with (2 ^ 16)
            | change (2 ^ (8 * Z.of_nat 4)) with (2 ^ 32)
            | change (2 ^ (8 * Z.of_nat 8)) with (2 ^ 64) ];
      lia.
Qed.

(** *** The missing [break]s *)

Lemma le_bytes_static_cast_unsigned (w : nat) (v : Z) :
  le_bytes w (static_cast_unsigned w v) = le_bytes w v.
Proof.
  unfold static_cast_unsigned.
  rewrite <- (le_decode_le_bytes w v).
  rewrite <- (length_le_bytes w v) at 1.
  apply le_bytes_le_decode.
Qed.

Lemma arm_bytes_eq (strlens : list Z) (arm : Z * ctype) :
  arm_bytes strlens arm = concat (map (le_bytes (sizeof (snd arm))) strlens).
Proof.
  unfold arm_bytes. f_equal. apply map_ext.
  intros l. apply le_bytes_static_cast_unsigned.
Qed.

(** The documented output is the flag, the width and the payloads around
    the bytes of the first arm the [switch] enters; the writer has the
    bytes of every arm from there on in that place.  The two agree
    when the width is 8, the last arm. *)
Lemma chunk7_documented_first_arm (s : std_string) (rest : list std_string) :
  let strlens := map size (s :: rest) in
  let minlen := fst (minmax_element strlens) in
  let maxlen := snd (minmax_element strlens) in
  chunk7_documented (s :: rest) =
  (if minlen =? maxlen then x01 else x00)
    :: byte_of_Z (chunk7_lenbytes maxlen)
    :: concat (map (arm_bytes (retained_strlens strlens))
                   (firstn 1 (enter (chunk7_lenbytes maxlen) switch_arms)))
    ++ concat (map data (s :: rest)).
Proof.
  intros strlens minlen maxlen.
  unfold chunk7_documented. fold strlens.
  rewrite retained_strlens_spec. fold minlen maxlen.
  rewrite (surjective_pairing (minmax_element strlens)). fold minlen maxlen.
  rewrite chunk7_lenbytes_spec.
  destruct (minlen =? maxlen);
    destruct (maxlen <? 2 ^ 8); [| destruct (maxlen <? 2 ^ 16);
                                   [| destruct (maxlen <? 2 ^ 32)] | |
                                 destruct (maxlen <? 2 ^ 16);
                                   [| destruct (maxlen <? 2 ^ 32)]];
    cbn [enter switch_arms Z.eqb Pos.eqb firstn map concat app];
    rewrite arm_bytes_eq, app_nil_r; reflexivity.
Qed.

Lemma chunk7_agrees_with_documented_at_width8
      (s : std_string) (rest : list std_string) :
  chunk7_lenbytes (snd (minmax_element (map size (s :: rest)))) = 8 ->
  emitted (write_chunk7_samples_string (s :: rest)) = chunk7_documented (s :: rest).
Proof.
  intros H8.
  rewrite (Appends_emitted _ _ _ (Appends_write_chunk7_samples_string s rest)).
  rewrite chunk7_documented_first_arm. cbv zeta.
  rewrite H8. reflexivity.
Qed.

(** C1. On the batch ["a", "bbb"] the length list [1, 3] is written
    four times -- as one-byte, two-byte, four-byte and eight-byte
    entries -- where the documented format has it once, in one-byte
    entries.  The [switch] runs four arms when entered at label 1, three at
    label 2, two at label 4 and a single arm only at label 8. *)
Theorem chunk7_length_list_repeated :
  let sample := [lit "a"; lit "bbb"] in
  emitted (write_chunk7_samples_string sample) =
    [x00; x01]
      ++ [x01; x03]
      ++ [x01; x00; x03; x00]
      ++ [x01; x00; x00; x00; x03; x00; x00; x00]
      ++ [x01; x00; x00; x00; x00; x00; x00; x00;
          x03; x00; x00; x00; x00; x00; x00; x00]
      ++ list_byte_of_string "abbb" /\
  chunk7_documented sample =
    [x00; x01] ++ [x01; x03] ++ list_byte_of_string "abbb" /\
  emitted (write_chunk7_samples_string sample) <> chunk7_documented sample /\
  map fst (enter 1 switch_arms) = [1; 2; 4; 8] /\
  map fst (enter 2 switch_arms) = [2; 4; 8] /\
  map fst (enter 4 switch_arms) = [4; 8] /\
  map fst (enter 8 switch_arms) = [8].
Proof.
  cbv zeta. repeat split; try reflexivity.
  vm_compute. discriminate.
Qed.

(** C7. On the batch ["ab", "cd", "ef"] the writer appends 23 bytes: flag
    1, width 1, the length 2 as a one-byte entry and then again as a
    two-byte, a four-byte and an eight-byte entry, then "abcdef".  The
    documented output has 9 bytes. *)
Theorem chunk7_ab_cd_ef :
  let sample := [lit "ab"; lit "cd"; lit "ef"] in
  emitted (write_chunk7_samples_string sample) =
    [x01; x01]
      ++ [x02]
      ++ [x02; x00]
      ++ [x02; x00; x00; x00]
      ++ [x02; x00; x00; x00; x00; x00; x00; x00]
      ++ list_byte_of_string "abcdef" /\
  length (emitted (write_chunk7_samples_string sample)) = 23%nat /\
  chunk7_documented sample = [x01; x01; x02] ++ list_byte_of_string "abcdef" /\
  length (chunk7_documented sample) = 9%nat.
Proof.
  cbv zeta. repeat split; reflexivity.
Qed.

(** ** Plain string batches *)

Lemma Appends_write_sample_values_string (sample : list std_string) :
  Appends (write_sample_values_string sample) (length sample)
          (concat (map (fun s =>
                          (byte_of_Z (Z.of_nat (varlen_width (size s)))
                             :: le_bytes (varlen_width (size s)) (size s))
                            ++ data s)
                       sample)).
Proof.
  unfold write_sample_values_string.
  eapply Appends_eq.
  - eapply Appends_bind; [|apply Appends_ret].
    apply Appends_for_each with
      (f := fun s => (byte_of_Z (Z.of_nat (varlen_width (size s)))
                        :: le_bytes (varlen_width (size s)) (size s)) ++ data s).
    intros s.
    eapply Appends_bind; [|apply Appends_write].
    apply Appends_write_varlen_int, size_range.
  - apply app_nil_r.
Qed.

(** C4, as the code has it. For a batch of strings that are all shorter
    than 256 bytes, the plain string writer appends the sum over the
    strings of 2 + length bytes: a tag byte, one length byte and the
    payload. *)
Theorem write_sample_values_string_byte_count (sample : list std_string)
        (Hshort : Forall (fun s => size s < 256) sample) :
  exists bs : list byte,
    (forall dst, write_sample_values_string sample dst = (length sample, dst ++ bs)) /\
    Z.of_nat (length bs) = total (map (fun s => 2 + size s) sample).
Proof.
  eexists. split; [exact (Appends_write_sample_values_string sample)|].
  induction Hshort as [|s sample Hs Hshort IH]; [reflexivity|].
  cbn [map concat total fold_right]. fold (total (map (fun s => 2 + size s) sample)).
  rewrite length_app, Nat2Z.inj_add, IH.
  f_equal.
  unfold varlen_width. apply Z.ltb_lt in Hs. rewrite Hs.
  rewrite length_app. cbn [length le_bytes]. unfold size. lia.
Qed.

Lemma write_sample_values_string_byte_count_witness :
  exists bs : list byte,
    (forall dst,
        write_sample_values_string [lit "a"; lit "bbb"] dst = (2%nat, dst ++ bs)) /\
    Z.of_nat (length bs) = 8.
Proof.
  apply (write_sample_values_string_byte_count [lit "a"; lit "bbb"]).
  repeat constructor.
Defined.

(** C4 as worded fails: on ["a", "bbb"] the writer appends 8 bytes, and
    the sum of 1 + length is 6. *)
Lemma write_sample_values_string_not_one_plus_length :
  let sample := [lit "a"; lit "bbb"] in
  Forall (fun s => size s < 256) sample /\
  Z.of_nat (length (emitted (write_sample_values_string sample))) = 8 /\
  total (map (fun s => 1 + size s) sample) = 6 /\
  ~ (forall sample : list std_string,
        Forall (fun s => size s < 256) sample ->
        Z.of_nat (length (emitted (write_sample_values_string sample))) =
        total (map (fun s => 1 + size s) sample)).
Proof.
  cbv zeta.
  assert (H : Forall (fun s => size s < 256) [lit "a"; lit "bbb"])
    by (repeat constructor).
  split; [exact H|]. split; [reflexivity|]. split; [reflexivity|].
  intros Hall. specialize (Hall _ H). vm_compute in Hall. discriminate.
Qed.

(** ** Numeric chunk7 batches *)

(** C9. For every scalar element type and every sequence of values the
    chunk7 writer is the plain numeric batch writer: same bytes, same
    result, for the pointer and for the vector overload; the bytes are
    the values' encodings one after the other and nothing else. *)
Theorem write_chunk7_samples_numeric (T : ctype) (sample : list Z) :
  (forall dst, write_chunk7_samples T sample dst = write_sample_values T sample dst) /\
  (forall dst,
      write_chunk7_samples_vector T sample dst = write_sample_values_vector T sample dst) /\
  emitted (write_chunk7_samples T sample) = emitted (write_sample_values T sample) /\
  emitted (write_chunk7_samples_vector T sample) =
    emitted (write_sample_values T sample) /\
  (forall dst,
      write_chunk7_samples T sample dst =
      (length sample, dst ++ concat (map (le_bytes (sizeof T)) sample))).
Proof.
  split; [reflexivity|].
  split; [reflexivity|].
  split; [reflexivity|].
  split; [reflexivity|].
  exact (Appends_write_sample_values T sample).
Qed.

(** * Further properties of the writers *)

(** ** Scalars and numeric batches *)

Lemma sizeof_pos (T : ctype) : (0 < sizeof T)%nat.
Proof. destruct T; simpl; lia. Qed.

Lemma app_eq_length_inv {A : Type} (a b x y : list A) :
  length a = length b -> a ++ x = b ++ y -> a = b /\ x = y.
Proof.
  revert b; induction a as [|h a IH]; intros [|k b] Hlen H;
    try discriminate; [now split|].
  injection Hlen as Hlen. injection H as -> H.
  destruct (IH b Hlen H) as [-> ->]. now split.
Qed.

Lemma le_bytes_inj (w : nat) (a b : Z) :
  0 <= a < 2 ^ (8 * Z.of_nat w) -> 0 <= b < 2 ^ (8 * Z.of_nat w) ->
  le_bytes w a = le_bytes w b -> a = b.
Proof.
  intros Ha Hb E. apply (f_equal le_decode) in E.
  now rewrite !le_decode_le_bytes_small in E.
Qed.

(** X1. The scalar writer of the default build appends exactly
    [sizeof(T)] bytes, and read back least significant byte first they
    give the value modulo 2^(8*sizeof(T)): the value itself for an
    unsigned value of the type, its two's complement for a negative one. *)
Theorem write_little_endian_roundtrip (T : ctype) (t : Z) :
  exists bs : list byte,
    (forall dst, write_little_endian T t dst = (tt, dst ++ bs)) /\
    length bs = sizeof T /\
    le_decode bs = t mod 2 ^ (8 * Z.of_nat (sizeof T)).
Proof.
  exists (le_bytes (sizeof T) t).
  split; [exact (Appends_write_little_endian T t)|].
  split; [apply length_le_bytes | apply le_decode_le_bytes].
Qed.

Lemma length_concat_le_bytes (w : nat) (sample : list Z) :
  length (concat (map (le_bytes w) sample)) = (length sample * w)%nat.
Proof.
  induction sample as [|v sample IH]; [reflexivity|].
  cbn [map concat length]. rewrite length_app, length_le_bytes, IH. lia.
Qed.

(** X2. The numeric batch writer appends [len * sizeof(T)] bytes and
    returns the pointer one past the last element; the block it writes
    is what writing the elements one by one with the scalar writer
    gives, and a batch made of two parts gives the bytes of the parts one
    after the other. *)
Theorem write_sample_values_as_scalars (T : ctype) (sample back : list Z) :
  (exists bs : list byte,
      (forall dst, write_sample_values T sample dst = (length sample, dst ++ bs)) /\
      length bs = (length sample * sizeof T)%nat /\
      (forall dst,
          for_each sample (fun v => write_little_endian T v) dst = (tt, dst ++ bs))) /\
  emitted (write_sample_values T (sample ++ back)) =
  emitted (write_sample_values T sample) ++ emitted (write_sample_values T back).
Proof.
  split.
  - exists (concat (map (le_bytes (sizeof T)) sample)).
    split; [exact (Appends_write_sample_values T sample)|].
    split; [apply length_concat_le_bytes|].
    apply Appends_for_each with (f := le_bytes (sizeof T)).
    intros v. apply Appends_write_little_endian.
  - rewrite !(Appends_emitted _ _ _ (Appends_write_sample_values T _)).
    now rewrite map_app, concat_app.
Qed.

(** X3. The numeric batch writer loses nothing: two batches of values of
    the type with the same bytes are the same batch. *)
Theorem write_sample_values_injective (T : ctype) (sample1 sample2 : list Z)
        (H1 : Forall (in_range T) sample1) (H2 : Forall (in_range T) sample2) :
  emitted (write_sample_values T sample1) = emitted (write_sample_values T sample2) ->
  sample1 = sample2.
Proof.
  rewrite !(Appends_emitted _ _ _ (Appends_write_sample_values T _)).
  revert sample2 H2.
  induction H1 as [|v1 sample1 Hv1 H1 IH]; intros sample2 H2 E.
  - destruct H2 as [|v2 sample2 Hv2 H2]; [reflexivity|].
    apply (f_equal (@length byte)) in E.
    rewrite !length_concat_le_bytes in E. cbn [length] in E.
    pose proof (sizeof_pos T). lia.
  - destruct H2 as [|v2 sample2 Hv2 H2].
    + apply (f_equal (@length byte)) in E.
      rewrite !length_concat_le_bytes in E. cbn [length] in E.
      pose proof (sizeof_pos T). lia.
    + cbn [map concat] in E.
      apply app_eq_length_inv in E; [|now rewrite !length_le_bytes].
      destruct E as [Ev E].
      apply le_bytes_inj in Ev; [|assumption|assumption].
      subst v2. f_equal. now apply IH.
Qed.

Lemma write_sample_values_injective_witness :
  Forall (in_range uint16_t) [258; 3] /\
  emitted (write_sample_values uint16_t [258; 3]) = [x02; x01; x03; x00] /\
  [258; 3] = [258; 3].
Proof.
  assert (H : Forall (in_range uint16_t) [258; 3])
    by (repeat first [apply Forall_nil
                     | apply Forall_cons; [unfold in_range; cbn; lia|]]).
  split; [exact H|]. split; [reflexivity|].
  apply (write_sample_values_injective uint16_t [258; 3] [258; 3] H H).
  reflexivity.
Defined.

(** X4. A vector of vectors is written as its concatenation: the inner
    boundaries leave no trace in the stream. *)
Theorem write_sample_values_vectors_flat (T : ctype) (vecs : list (list Z)) :
  forall dst,
    write_sample_values_vectors T vecs dst =
    (tt, dst ++ emitted (write_sample_values T (concat vecs))).
Proof.
  rewrite (Appends_emitted _ _ _ (Appends_write_sample_values T _)).
  replace (concat (map (le_bytes (sizeof T)) (concat vecs)))
    with (concat (map (fun vec => concat (map (le_bytes (sizeof T)) vec)) vecs)).
  2:{ induction vecs as [|vec vecs IH]; [reflexivity|].
      cbn [map concat]. now rewrite IH, map_app, concat_app. }
  unfold write_sample_values_vectors.
  apply Appends_for_each
    with (f := fun vec => concat (map (le_bytes (sizeof T)) vec)).
  intros vec. unfold write_sample_values_vector.
  eapply Appends_eq.
  - eapply Appends_bind; [apply Appends_write_sample_values | apply Appends_ret].
  - apply app_nil_r.
Qed.

(** ** Length-prefixed integers *)

Lemma Appends_write_fixlen_int (T : ctype) (val : Z) :
  Appends (write_fixlen_int T val) tt
          (byte_of_Z (Z.of_nat (sizeof T)) :: le_bytes (sizeof T) val).
Proof.
  unfold write_fixlen_int.
  eapply Appends_eq; [appends_seq | reflexivity].
Qed.

(** X5. [write_fixlen_int] appends a tag byte that holds [sizeof(T)]
    -- one of 1, 2, 4, 8 -- and then exactly that many bytes, which read
    back least significant byte first give the value modulo
    2^(8*sizeof(T)). *)
Theorem write_fixlen_int_format (T : ctype) (val : Z) :
  exists (tag : byte) (body : list byte),
    (forall dst, write_fixlen_int T val dst = (tt, dst ++ tag :: body)) /\
    Z_of_byte tag = Z.of_nat (sizeof T) /\
    In (Z_of_byte tag) [1; 2; 4; 8] /\
    Z.of_nat (length body) = Z_of_byte tag /\
    le_decode body = val mod 2 ^ (8 * Z.of_nat (sizeof T)).
Proof.
  exists (byte_of_Z (Z.of_nat (sizeof T))), (le_bytes (sizeof T) val).
  split; [exact (Appends_write_fixlen_int T val)|].
  rewrite length_le_bytes, le_decode_le_bytes.
  destruct T; cbn; tauto.
Qed.

(** X6. On an unsigned 64-bit value [write_varlen_int] does what
    [write_fixlen_int] does at the narrowest of [uint8_t], [uint32_t],
    [uint64_t] that holds the value. *)
Theorem write_varlen_int_as_fixlen (v : Z) (Hv : 0 <= v < 2 ^ 64) :
  let T := if v <? 2 ^ 8 then uint8_t
           else if v <? 2 ^ 32 then uint32_t
           else uint64_t in
  in_range T v /\
  forall dst, write_varlen_int v dst = write_fixlen_int T v dst.
Proof.
  cbv zeta.
  pose proof (Appends_write_varlen_int v Hv) as Hvar.
  unfold varlen_width in Hvar.
  change (2 ^ 8) with 256. change (2 ^ 32) with 4294967296.
  destruct (Z.ltb_spec v 256) as [H8|H8].
  - split; [unfold in_range; cbn; lia|].
    intros dst. now rewrite Hvar, Appends_write_fixlen_int.
  - destruct (Z.ltb_spec v 4294967296) as [H32|H32];
      [destruct (Z.leb_spec v 4294967295); [|lia]
      | destruct (Z.leb_spec v 4294967295); [lia|]].
    + split; [unfold in_range; cbn; lia|].
      intros dst. now rewrite Hvar, Appends_write_fixlen_int.
    + split; [unfold in_range; cbn; lia|].
      intros dst. now rewrite Hvar, Appends_write_fixlen_int.
Qed.

Lemma write_varlen_int_as_fixlen_witness :
  0 <= 70000 < 2 ^ 64 /\
  in_range uint32_t 70000 /\
  forall dst, write_varlen_int 70000 dst = write_fixlen_int uint32_t 70000 dst.
Proof.
  assert (H : 0 <= 70000 < 2 ^ 64) by (split; [lia | reflexivity]).
  split; [exact H | exact (write_varlen_int_as_fixlen 70000 H)].
Defined.

Lemma varlen_tag_inj (v1 v2 : Z) :
  byte_of_Z (Z.of_nat (varlen_width v1)) = byte_of_Z (Z.of_nat (varlen_width v2)) ->
  varlen_width v1 = varlen_width v2.
Proof.
  intros E.
  destruct (varlen_width_cases v1) as [H1 | [H1 | H1]];
    destruct (varlen_width_cases v2) as [H2 | [H2 | H2]];
    rewrite H1, H2 in *; try reflexivity; discriminate E.
Qed.

Lemma varlen_bytes_prefix_free (v1 v2 : Z) (rest1 rest2 : list byte) :
  0 <= v1 < 2 ^ 64 -> 0 <= v2 < 2 ^ 64 ->
  emitted (write_varlen_int v1) ++ rest1 = emitted (write_varlen_int v2) ++ rest2 ->
  v1 = v2 /\ rest1 = rest2.
Proof.
  intros H1 H2.
  rewrite (Appends_emitted _ _ _ (Appends_write_varlen_int v1 H1)).
  rewrite (Appends_emitted _ _ _ (Appends_write_varlen_int v2 H2)).
  cbn [app]. intros E. injection E as Etag E.
  apply varlen_tag_inj in Etag.
  pose proof (varlen_width_holds v1 H1) as Hw1.
  pose proof (varlen_width_holds v2 H2) as Hw2.
  rewrite Etag in *.
  apply app_eq_length_inv in E; [|now rewrite !length_le_bytes].
  destruct E as [Ebody Erest].
  apply le_bytes_inj in Ebody; [now split | lia | lia].
Qed.

(** X7. The encoding of [write_varlen_int] can be read back without
    knowing where it ends: if the encodings of two unsigned 64-bit values,
    each followed by arbitrary bytes, give the same stream, the values
    are equal and so are the bytes that follow. *)
Theorem write_varlen_int_prefix_free (v1 v2 : Z) (rest1 rest2 : list byte)
        (H1 : 0 <= v1 < 2 ^ 64) (H2 : 0 <= v2 < 2 ^ 64) :
  emitted (write_varlen_int v1) ++ rest1 = emitted (write_varlen_int v2) ++ rest2 ->
  v1 = v2 /\ rest1 = rest2.
Proof.
  now apply varlen_bytes_prefix_free.
Qed.

Lemma write_varlen_int_prefix_free_witness :
  0 <= 300 < 2 ^ 64 /\
  emitted (write_varlen_int 300) ++ [x07] = [x04; x2c; x01; x00; x00; x07] /\
  300 = 300 /\ [x07] = [x07].
Proof.
  assert (H : 0 <= 300 < 2 ^ 64) by (split; [lia | reflexivity]).
  split; [exact H|]. split; [reflexivity|].
  apply (write_varlen_int_prefix_free 300 300 [x07] [x07] H H).
  reflexivity.
Defined.

(** ** Plain string batches, continued *)

Lemma emitted_write_sample_values_string_cons (s : std_string) (rest : list std_string) :
  emitted (write_sample_values_string (s :: rest)) =
  emitted (write_varlen_int (size s))
    ++ data s ++ emitted (write_sample_values_string rest).
Proof.
  rewrite !(Appends_emitted _ _ _ (Appends_write_sample_values_string _)).
  rewrite (Appends_emitted _ _ _ (Appends_write_varlen_int _ (size_range s))).
  cbn [map concat app]. now rewrite <- app_assoc.
Qed.

(** X8. The plain string encoding can be decoded: two batches that give
    the same bytes consist of the same strings, in the same order. *)
Theorem write_sample_values_string_injective (sample1 sample2 : list std_string) :
  emitted (write_sample_values_string sample1) =
  emitted (write_sample_values_string sample2) ->
  map data sample1 = map data sample2.
Proof.
  revert sample2.
  induction sample1 as [|s1 sample1 IH]; intros [|s2 sample2] E.
  - reflexivity.
  - rewrite emitted_write_sample_values_string_cons in E.
    rewrite (Appends_emitted _ _ _ (Appends_write_varlen_int _ (size_range s2))) in E.
    discriminate E.
  - rewrite emitted_write_sample_values_string_cons in E.
    rewrite (Appends_emitted _ _ _ (Appends_write_varlen_int _ (size_range s1))) in E.
    discriminate E.
  - rewrite !emitted_write_sample_values_string_cons in E.
    apply varlen_bytes_prefix_free in E; try apply size_range.
    destruct E as [Esize E].
    apply app_eq_length_inv in E; [|unfold size in Esize; lia].
    destruct E as [Edata E].
    cbn [map]. f_equal; [exact Edata | now apply IH].
Qed.

Lemma write_sample_values_string_injective_witness :
  emitted (write_sample_values_string [lit "a"; lit "bbb"]) =
  [x01; x01] ++ list_byte_of_string "a"
    ++ [x01; x03] ++ list_byte_of_string "bbb" /\
  map data [lit "a"; lit "bbb"] = map data [lit "a"; lit "bbb"].
Proof.
  split; [reflexivity|].
  apply (write_sample_values_string_injective [lit "a"; lit "bbb"] [lit "a"; lit "bbb"]).
  reflexivity.
Defined.

(** X9. For every batch the plain string writer returns the pointer one
    past the last string and appends, per string, one tag byte, as many
    length bytes as the tag says (1, 4 or 8) and the payload; a batch
    made of two parts gives the bytes of the parts one after the other. *)
Theorem write_sample_values_string_layout (sample back : list std_string) :
  (exists bs : list byte,
      (forall dst,
          write_sample_values_string sample dst = (length sample, dst ++ bs)) /\
      Z.of_nat (length bs) =
      total (map (fun s => 1 + Z.of_nat (varlen_width (size s)) + size s) sample)) /\
  emitted (write_sample_values_string (sample ++ back)) =
  emitted (write_sample_values_string sample)
    ++ emitted (write_sample_values_string back).
Proof.
  split.
  - eexists. split; [exact (Appends_write_sample_values_string sample)|].
    induction sample as [|s sample IH]; [reflexivity|].
    cbn [map concat total fold_right].
    fold (total (map (fun s => 1 + Z.of_nat (varlen_width (size s)) + size s) sample)).
    rewrite length_app, Nat2Z.inj_add, IH. f_equal.
    rewrite length_app. cbn [length]. rewrite length_le_bytes.
    unfold size. lia.
  - rewrite !(Appends_emitted _ _ _ (Appends_write_sample_values_string _)).
    now rewrite map_app, concat_app.
Qed.

(** ** Chunk7 string batches, continued *)

Lemma length_plain_bytes (sample : list std_string) :
  Z.of_nat (length (emitted (write_sample_values_string sample))) =
  total (map (fun s => 1 + Z.of_nat (varlen_width (size s)) + size s) sample).
Proof.
  rewrite (Appends_emitted _ _ _ (Appends_write_sample_values_string sample)).
  induction sample as [|s sample IH]; [reflexivity|].
  cbn [map concat total fold_right].
  fold (total (map (fun s => 1 + Z.of_nat (varlen_width (size s)) + size s) sample)).
  rewrite length_app, Nat2Z.inj_add, IH. f_equal.
  rewrite length_app. cbn [length]. rewrite length_le_bytes.
  unfold size. lia.
Qed.

Lemma length_arm_bytes (strlens : list Z) (arm : Z * ctype) :
  length (arm_bytes strlens arm) = (length strlens * sizeof (snd arm))%nat.
Proof.
  rewrite arm_bytes_eq. apply length_concat_le_bytes.
Qed.

Lemma length_arms_bytes (strlens : list Z) (arms : list (Z * ctype)) :
  Z.of_nat (length (concat (map (arm_bytes strlens) arms))) =
  Z.of_nat (length strlens) * arms_width arms.
Proof.
  unfold arms_width.
  induction arms as [|arm arms IH]; [cbn; lia|].
  cbn [map concat total fold_right].
  fold (total (map (fun arm => Z.of_nat (sizeof (snd arm))) arms)).
  rewrite length_app, Nat2Z.inj_add, IH, length_arm_bytes. lia.
Qed.

Lemma length_payload (sample : list std_string) :
  Z.of_nat (length (concat (map data sample))) = total (map size sample).
Proof.
  induction sample as [|s sample IH]; [reflexivity|].
  cbn [map concat total fold_right]. fold (total (map size sample)).
  rewrite length_app, Nat2Z.inj_add, IH. reflexivity.
Qed.

Lemma length_chunk7_bytes (s : std_string) (rest : list std_string) :
  let strlens := map size (s :: rest) in
  let maxlen := snd (minmax_element strlens) in
  Z.of_nat (length (emitted (write_chunk7_samples_string (s :: rest)))) =
  2 + Z.of_nat (length (retained_strlens strlens))
      * arms_width (enter (chunk7_lenbytes maxlen) switch_arms)
    + total strlens.
Proof.
  intros strlens maxlen.
  rewrite (Appends_emitted _ _ _ (Appends_write_chunk7_samples_string s rest)).
  cbv zeta. fold strlens. fold maxlen.
  cbn [length]. rewrite length_app, !Nat2Z.inj_succ, Nat2Z.inj_add.
  rewrite length_arms_bytes, length_payload. fold strlens. lia.
Qed.

Lemma arms_width_entered (maxlen : Z) :
  arms_width (enter (chunk7_lenbytes maxlen) switch_arms) =
  if maxlen <? 2 ^ 8 then 1 + 2 + 4 + 8
  else if maxlen <? 2 ^ 16 then 2 + 4 + 8
  else if maxlen <? 2 ^ 32 then 4 + 8
  else 8.
Proof.
  rewrite chunk7_lenbytes_spec.
  destruct (maxlen <? 2 ^ 8); [reflexivity|].
  destruct (maxlen <? 2 ^ 16); [reflexivity|].
  destruct (maxlen <? 2 ^ 32); reflexivity.
Qed.

Lemma length_retained_strlens (strlens : list Z) :
  length (retained_strlens strlens) =
  if fst (minmax_element strlens) =? snd (minmax_element strlens)
  then 1%nat else length strlens.
Proof.
  rewrite retained_strlens_spec.
  now destruct (fst (minmax_element strlens) =? snd (minmax_element strlens)).
Qed.

(** X10. The size of a non-empty chunk7 string batch: two bytes for flag
    and width, the payloads, and for every entry of the length list (one
    entry if all lengths agree, one per string otherwise) 15 bytes when
    the longest string is below 2^8 bytes, 14 below 2^16, 12 below 2^32 and
    8 from there on -- the widths of all the arms the [switch] runs
    through, not the width announced. *)
Theorem write_chunk7_samples_string_size (s : std_string) (rest : list std_string) :
  let strlens := map size (s :: rest) in
  let minlen := fst (minmax_element strlens) in
  let maxlen := snd (minmax_element strlens) in
  let entries := if minlen =? maxlen then 1 else Z.of_nat (length strlens) in
  let per_entry :=
    if maxlen <? 2 ^ 8 then 15
    else if maxlen <? 2 ^ 16 then 14
    else if maxlen <? 2 ^ 32 then 12
    else 8 in
  Z.of_nat (length (emitted (write_chunk7_samples_string (s :: rest)))) =
  2 + entries * per_entry + total strlens.
Proof.
  intros strlens minlen maxlen entries per_entry.
  rewrite length_chunk7_bytes. fold strlens. fold maxlen.
  rewrite arms_width_entered, length_retained_strlens.
  fold minlen maxlen. subst entries per_entry.
  destruct (minlen =? maxlen); reflexivity.
Qed.

Lemma varlen_width_le_4 (v : Z) : v < 2 ^ 32 -> (varlen_width v <= 4)%nat.
Proof.
  intros H. unfold varlen_width.
  destruct (v <? 256); [lia|].
  destruct (Z.leb_spec v 4294967295); [lia|].
  change (2 ^ 32) with 4294967296 in H. lia.
Qed.

Lemma plain_overhead_le_5 (sample : list std_string) :
  Forall (fun it => size it < 2 ^ 32) sample ->
  total (map (fun s => 1 + Z.of_nat (varlen_width (size s)) + size s) sample)
  <= 5 * Z.of_nat (length sample) + total (map size sample).
Proof.
  induction 1 as [|s sample Hs Hall IH]; [cbn; lia|].
  cbn [map total fold_right length].
  fold (total (map (fun s => 1 + Z.of_nat (varlen_width (size s)) + size s) sample)).
  fold (total (map size sample)).
  pose proof (varlen_width_le_4 _ Hs). lia.
Qed.

(** X11. For a batch whose strings are all shorter than 2^32 bytes and
    not all of the same length, the chunk7 encoding is longer than the
    plain encoding of the same batch. *)
Theorem chunk7_longer_than_plain (s : std_string) (rest : list std_string)
        (Hshort : Forall (fun it => size it < 2 ^ 32) (s :: rest))
        (Hdiffer : Exists (fun it => size it <> size s) rest) :
  (length (emitted (write_sample_values_string (s :: rest)))
   < length (emitted (write_chunk7_samples_string (s :: rest))))%nat.
Proof.
  apply Nat2Z.inj_lt.
  rewrite length_plain_bytes, length_chunk7_bytes.
  rewrite arms_width_entered, length_retained_strlens.
  pose proof (plain_overhead_le_5 _ Hshort) as Hplain.
  pose proof (minmax_element_spec (size s) (map size rest)) as Hmm.
  change (size s :: map size rest) with (map size (s :: rest)) in Hmm.
  destruct (minmax_element (map size (s :: rest))) as [minlen maxlen].
  cbn [fst snd]. destruct Hmm as (_ & Hmax & Hall).
  assert (Hmaxlt : maxlen < 2 ^ 32).
  { apply in_map_iff in Hmax. destruct Hmax as (it & <- & Hit).
    rewrite Forall_forall in Hshort. now apply Hshort. }
  assert (Hne : minlen <> maxlen).
  { intros ->. apply Exists_exists in Hdiffer.
    destruct Hdiffer as (it & Hit & Hsz).
    rewrite Forall_forall in Hall.
    pose proof (Hall (size s) (in_eq _ _)).
    pose proof (Hall (size it) (in_cons _ _ _ (in_map size _ _ Hit))).
    lia. }
  apply Z.eqb_neq in Hne. rewrite Hne.
  rewrite length_map in *.
  assert (Hn : 0 < Z.of_nat (length (s :: rest))) by (cbn [length]; lia).
  destruct (maxlen <? 2 ^ 8); [lia|].
  destruct (maxlen <? 2 ^ 16); [lia|].
  destruct (Z.ltb_spec maxlen (2 ^ 32)); lia.
Qed.

Lemma chunk7_longer_than_plain_witness :
  Forall (fun it => size it < 2 ^ 32) [lit "a"; lit "bbb"] /\
  Exists (fun it => size it <> size (lit "a")) [lit "bbb"] /\
  (length (emitted (write_sample_values_string [lit "a"; lit "bbb"]))
   < length (emitted (write_chunk7_samples_string [lit "a"; lit "bbb"])))%nat.
Proof.
  assert (H1 : Forall (fun it => size it < 2 ^ 32) [lit "a"; lit "bbb"])
    by (repeat constructor).
  assert (H2 : Exists (fun it => size it <> size (lit "a")) [lit "bbb"])
    by (apply Exists_cons_hd; discriminate).
  split; [exact H1|]. split; [exact H2|].
  exact (chunk7_longer_than_plain (lit "a") [lit "bbb"] H1 H2).
Defined.

Lemma plain_bytes_uniform_short (sample : list std_string) (m : Z) :
  m < 256 -> Forall (fun l => l = m) (map size sample) ->
  total (map (fun s => 1 + Z.of_nat (varlen_width (size s)) + size s) sample) =
  2 * Z.of_nat (length sample) + total (map size sample).
Proof.
  intros Hm Hall. induction sample as [|s sample IH]; [reflexivity|].
  cbn [map] in Hall. inversion Hall as [|? ? Hs Hrest]; subst.
  cbn [map total fold_right length].
  fold (total (map (fun s => 1 + Z.of_nat (varlen_width (size s)) + size s) sample)).
  fold (total (map size sample)).
  rewrite (IH Hrest). unfold varlen_width.
  apply Z.ltb_lt in Hm. rewrite Hm. lia.
Qed.

(** X12. On strings the two overloads of [write_chunk7_samples] disagree.
    The [std::vector] overload writes the plain encoding, and for every
    non-empty batch that is a different stream from the one the pointer
    overload writes. *)
Theorem write_chunk7_samples_overloads_differ (s : std_string) (rest : list std_string) :
  (forall dst,
      write_chunk7_samples_vector_string (s :: rest) dst =
      (tt, dst ++ emitted (write_sample_values_string (s :: rest)))) /\
  emitted (write_chunk7_samples_vector_string (s :: rest)) <>
  emitted (write_chunk7_samples_string (s :: rest)).
Proof.
  assert (Hvec : Appends (write_chunk7_samples_vector_string (s :: rest)) tt
                         (emitted (write_sample_values_string (s :: rest)))).
  { unfold write_chunk7_samples_vector_string.
    rewrite (Appends_emitted _ _ _ (Appends_write_sample_values_string _)).
    eapply Appends_eq.
    - eapply Appends_bind; [apply Appends_write_sample_values_string | apply Appends_ret].
    - apply app_nil_r. }
  split; [exact Hvec|].
  rewrite (Appends_emitted _ _ _ Hvec).
  intros E.
  pose proof (f_equal (fun bs => Z.of_nat (length bs)) E) as Elen.
  cbv beta in Elen.
  rewrite length_plain_bytes, length_chunk7_bytes in Elen.
  rewrite arms_width_entered, length_retained_strlens in Elen.
  rewrite emitted_write_sample_values_string_cons in E.
  rewrite (Appends_emitted _ _ _ (Appends_write_varlen_int _ (size_range s))) in E.
  rewrite (Appends_emitted _ _ _ (Appends_write_chunk7_samples_string s rest)) in E.
  cbv zeta in E. cbn [app] in E.
  pose proof (minmax_element_spec (size s) (map size rest)) as Hmm.
  change (size s :: map size rest) with (map size (s :: rest)) in Hmm.
  destruct (minmax_element (map size (s :: rest))) as [minlen maxlen].
  cbn [fst snd] in E, Elen. destruct Hmm as (_ & _ & Hall).
  injection E as Ehead _.
  destruct (Z.eqb_spec minlen maxlen) as [Heq|Hne].
  - subst minlen. unfold varlen_width in Ehead.
    destruct (Z.ltb_spec (size s) 256) as [Hs|Hs].
    + assert (Hall' : Forall (fun l => l = maxlen) (map size (s :: rest))).
      { eapply Forall_impl; [|exact Hall]. cbv beta. intros; lia. }
      assert (Hsm : size s = maxlen)
        by (rewrite Forall_forall in Hall'; apply Hall'; apply in_eq).
      rewrite (plain_bytes_uniform_short _ maxlen) in Elen; [|lia|exact Hall'].
      replace (maxlen <? 2 ^ 8) with true in Elen
        by (symmetry; apply Z.ltb_lt; change (2 ^ 8) with 256; lia).
      lia.
    + destruct (size s <=? 4294967295); discriminate Ehead.
  - destruct (varlen_width_cases (size s)) as [H | [H | H]];
      rewrite H in Ehead; discriminate Ehead.
Qed.

(** ** Reading a chunk7 string batch back *)

Lemma concat_le_bytes_inj (w : nat) (l1 l2 : list Z) :
  (0 < w)%nat ->
  Forall (fun l => 0 <= l < 2 ^ (8 * Z.of_nat w)) l1 ->
  Forall (fun l => 0 <= l < 2 ^ (8 * Z.of_nat w)) l2 ->
  concat (map (le_bytes w) l1) = concat (map (le_bytes w) l2) ->
  l1 = l2.
Proof.
  intros Hw H1. revert l2.
  induction H1 as [|v1 l1 Hv1 H1 IH]; intros l2 H2 E;
    destruct H2 as [|v2 l2 Hv2 H2]; try reflexivity;
    try (apply (f_equal (@length byte)) in E;
         rewrite !length_concat_le_bytes in E; cbn [length] in E; lia).
  cbn [map concat] in E.
  apply app_eq_length_inv in E; [|now rewrite !length_le_bytes].
  destruct E as [Ev E].
  apply le_bytes_inj in Ev; [|assumption|assumption].
  subst v2. f_equal. now apply IH.
Qed.

Lemma payload_inj (sample1 sample2 : list std_string) :
  map size sample1 = map size sample2 ->
  concat (map data sample1) = concat (map data sample2) ->
  map data sample1 = map data sample2.
Proof.
  revert sample2.
  induction sample1 as [|s1 sample1 IH]; intros [|s2 sample2] Hsz E;
    try discriminate Hsz; [reflexivity|].
  cbn [map] in Hsz. injection Hsz as Hs Hsz.
  cbn [map concat] in E.
  apply app_eq_length_inv in E; [|unfold size in Hs; lia].
  destruct E as [Ed E]. cbn [map]. f_equal; [exact Ed | now apply IH].
Qed.

Lemma all_equal_same_length (m : Z) (l1 l2 : list Z) :
  Forall (fun l => l = m) l1 -> Forall (fun l => l = m) l2 ->
  length l1 = length l2 -> l1 = l2.
Proof.
  intros H1. revert l2.
  induction H1 as [|v1 l1 -> H1 IH]; intros l2 H2 Hlen;
    destruct H2 as [|v2 l2 -> H2]; try discriminate Hlen; [reflexivity|].
  f_equal. apply IH; [assumption | now injection Hlen].
Qed.

Lemma chunk7_lenbytes_byte_inj (m1 m2 : Z) :
  byte_of_Z (chunk7_lenbytes m1) = byte_of_Z (chunk7_lenbytes m2) ->
  chunk7_lenbytes m1 = chunk7_lenbytes m2.
Proof.
  rewrite !chunk7_lenbytes_spec.
  destruct (m1 <? 2 ^ 8), (m1 <? 2 ^ 16), (m1 <? 2 ^ 32),
    (m2 <? 2 ^ 8), (m2 <? 2 ^ 16), (m2 <? 2 ^ 32);
    intros E; try reflexivity; discriminate E.
Qed.

Lemma retained_fits_first_arm (x : Z) (rest : list Z) :
  Forall (fun l => 0 <= l < 2 ^ 64) (x :: rest) ->
  exists (arm : Z * ctype) (arms : list (Z * ctype)),
    enter (chunk7_lenbytes (snd (minmax_element (x :: rest)))) switch_arms
    = arm :: arms /\
    Forall (fun l => 0 <= l < 2 ^ (8 * Z.of_nat (sizeof (snd arm))))
           (retained_strlens (x :: rest)).
Proof.
  intros Hrange.
  pose proof (retained_strlens_incl x rest) as Hincl.
  pose proof (minmax_element_spec x rest) as Hmm.
  destruct (minmax_element (x :: rest)) as [minlen maxlen]. cbn [snd].
  destruct Hmm as (_ & _ & Hall).
  rewrite Forall_forall in Hrange, Hall.
  assert (Hb : forall l, In l (retained_strlens (x :: rest)) ->
                         0 <= l <= maxlen /\ l < 2 ^ 64).
  { intros l Hl. apply Hincl in Hl.
    specialize (Hall l Hl). specialize (Hrange l Hl). lia. }
  destruct (enter_switch_arms_cases maxlen)
    as [[Hm ->] | [[Hm ->] | [[Hm ->] | ->]]];
    unfold switch_arms; eexists; eexists; (split; [reflexivity|]);
    apply Forall_forall; intros l Hl; specialize (Hb l Hl); cbn [snd sizeof];
    first [ change (2 ^ (8 * Z.of_nat 1)) with (2 ^ 8)
          | change (2 ^ (8 * Z.of_nat 2)) with (2 ^ 16)
          | change (2 ^ (8 * Z.of_nat 4)) with (2 ^ 32)
          | change (2 ^ (8 * Z.of_nat 8)) with (2 ^ 64) ];
    lia.
Qed.

Lemma cons2_inv {A : Type} (a b a' b' : A) (l l' : list A) :
  a :: b :: l = a' :: b' :: l' -> a = a' /\ b = b' /\ l = l'.
Proof. intros H. now inversion H. Qed.

Lemma uniform_all_equal (x : Z) (rest : list Z) :
  fst (minmax_element (x :: rest)) = snd (minmax_element (x :: rest)) ->
  Forall (fun l => l = snd (minmax_element (x :: rest))) (x :: rest).
Proof.
  pose proof (minmax_element_spec x rest) as Hmm.
  destruct (minmax_element (x :: rest)) as [minlen maxlen]. cbn [fst snd].
  destruct Hmm as (_ & _ & Hall). intros ->.
  eapply Forall_impl; [|exact Hall]. cbv beta. intros; lia.
Qed.

(** X17. A chunk7 string batch can be read back once the number of
    strings is known: two batches of the same number of strings that give
    the same bytes consist of the same strings.  The number is needed:
    one empty string and two empty strings give the same bytes. *)
Theorem write_chunk7_samples_string_injective (sample1 sample2 : list std_string)
        (Hlen : length sample1 = length sample2)
        (Hbytes : emitted (write_chunk7_samples_string sample1) =
                  emitted (write_chunk7_samples_string sample2)) :
  map data sample1 = map data sample2 /\
  emitted (write_chunk7_samples_string [lit ""]) =
  emitted (write_chunk7_samples_string [lit ""; lit ""]).
Proof.
  split; [|reflexivity]. revert Hbytes.
  destruct sample1 as [|s1 rest1], sample2 as [|s2 rest2];
    try discriminate Hlen; [reflexivity|].
  rewrite (Appends_emitted _ _ _ (Appends_write_chunk7_samples_string s1 rest1)).
  rewrite (Appends_emitted _ _ _ (Appends_write_chunk7_samples_string s2 rest2)).
  cbv zeta.
  set (strlens1 := map size (s1 :: rest1)).
  set (strlens2 := map size (s2 :: rest2)).
  intros E. apply cons2_inv in E. destruct E as (Eflag & Ewidth & Ebody).
  apply chunk7_lenbytes_byte_inj in Ewidth. rewrite <- Ewidth in Ebody.
  assert (Euni : (fst (minmax_element strlens1) =? snd (minmax_element strlens1)) =
                 (fst (minmax_element strlens2) =? snd (minmax_element strlens2))).
  { revert Eflag.
    destruct (fst (minmax_element strlens1) =? snd (minmax_element strlens1)),
      (fst (minmax_element strlens2) =? snd (minmax_element strlens2));
      intros Eflag; try reflexivity; discriminate Eflag. }
  assert (Hlens : length strlens1 = length strlens2)
    by (unfold strlens1, strlens2; now rewrite !length_map).
  assert (Hret : length (retained_strlens strlens1) = length (retained_strlens strlens2)).
  { rewrite !length_retained_strlens, Euni, Hlens. reflexivity. }
  apply app_eq_length_inv in Ebody.
  2:{ apply Nat2Z.inj. rewrite !length_arms_bytes, Hret. reflexivity. }
  destruct Ebody as [Earms Epayload].
  destruct (retained_fits_first_arm (size s1) (map size rest1)
              (Forall_size_range (s1 :: rest1))) as (arm & arms & Harms & Hfit1).
  destruct (retained_fits_first_arm (size s2) (map size rest2)
              (Forall_size_range (s2 :: rest2))) as (arm' & arms' & Harms' & Hfit2).
  change (size s1 :: map size rest1) with strlens1 in Harms, Hfit1.
  change (size s2 :: map size rest2) with strlens2 in Harms', Hfit2.
  rewrite <- Ewidth, Harms in Harms'. injection Harms' as <- <-.
  rewrite Harms in Earms. cbn [map concat] in Earms.
  apply app_eq_length_inv in Earms; [|now rewrite !length_arm_bytes, Hret].
  destruct Earms as [Earm _]. rewrite !arm_bytes_eq in Earm.
  apply concat_le_bytes_inj in Earm; [|apply sizeof_pos|assumption|assumption].
  assert (Hsizes : strlens1 = strlens2).
  { rewrite !retained_strlens_spec, <- Euni in Earm.
    destruct (Z.eqb_spec (fst (minmax_element strlens1))
                         (snd (minmax_element strlens1))) as [U1|U1];
      [|exact Earm].
    symmetry in Euni. apply Z.eqb_eq in Euni.
    assert (Emax : snd (minmax_element strlens1) = snd (minmax_element strlens2))
      by (now inversion Earm).
    apply (all_equal_same_length (snd (minmax_element strlens1)));
      [now apply uniform_all_equal
      | rewrite Emax; now apply uniform_all_equal
      | exact Hlens]. }
  now apply payload_inj.
Qed.

Lemma write_chunk7_samples_string_injective_witness :
  length [lit "a"; lit "bbb"] = length [lit "a"; lit "bbb"] /\
  map data [lit "a"; lit "bbb"] = map data [lit "a"; lit "bbb"] /\
  emitted (write_chunk7_samples_string [lit ""]) =
  emitted (write_chunk7_samples_string [lit ""; lit ""]).
Proof.
  split; [reflexivity|].
  exact (write_chunk7_samples_string_injective
           [lit "a"; lit "bbb"] [lit "a"; lit "bbb"] eq_refl eq_refl).
Defined.
